(** * Spherical harmonics evaluator: associated Legendre polynomials,
      the real-part harmonic value and the HSL colour map

    Shallow embedding of [calculateLegendreP], [calculateYlm], [factorial]
    and [valueToColor] of the component [SphericalHarmonicsVisualization],
    of the colouring of a vertex in [updateSphere], and of the two sliders
    with [debouncedUpdate].

    Conventions of the embedding.
    - The degree [l], the order [m] and the loop counters [i], [ll] are
      integer-valued JavaScript numbers: they are [Z].
    - Every other JavaScript number ([x], [theta], [phi], [pmm], ...) is read
      as a real number, as the specification does: [R] with Stdlib's [sqrt],
      [cos] and [PI].  Round-off of binary64 arithmetic is outside this model.
    - What binary64 does beyond round-off is in the module [Binary64]:
      [factorial] on doubles with a bounded call stack.  It is exact up to
      [22], rounded up to [170], [Infinity] from [171], and it cannot return
      once [n - 1] is [n].  A property that gives a value or a sign of
      [calculateYlm], or says that it returns, is stated where the two
      readings differ by round-off only.
      [Math.sqrt] of a negative number is NaN in JavaScript while Stdlib's
      [sqrt] is [0] there; the argument [(1 - x) * (1 + x)] is negative only
      for [x] outside [[-1, 1]].
    - A [for] loop is a function defined by well-founded recursion on the
      distance between the counter and its bound, so that it is total. *)

From Equations Require Import Equations.
From Stdlib Require Import ZArith Reals Lra Lia List.
From Stdlib Require Floats Uint63.
Import ListNotations.

Open Scope Z_scope.

(** ** Loops of [calculateLegendreP] *)

Module Legendre.

(** [for (let i = 1; i <= m; i++) { pmm *= -fact * somx2; fact += 2.0; }]
    The state is the pair [(pmm, fact)]. *)
Equations? seed_loop (m : Z) (somx2 : R) (i : Z) (pmm fact : R) : R * R
  by wf (Z.to_nat (m + 1 - i)) lt :=
  seed_loop m somx2 i pmm fact with Z_le_dec i m => {
    | left _ => seed_loop m somx2 (i + 1) (pmm * (- fact * somx2))%R (fact + 2)%R
    | right _ => (pmm, fact) }.
Proof. lia. Qed.

(** [for (let ll = m + 2; ll <= l; ll++) {
       pll = (x * (2 * ll - 1) * pmmp1 - (ll + m - 1) * pmm) / (ll - m);
       pmm = pmmp1; pmmp1 = pll; }]
    The state is the triple [(pll, pmm, pmmp1)]. *)
Equations? rec_loop (l m : Z) (x : R) (ll : Z) (pll pmm pmmp1 : R) : R * R * R
  by wf (Z.to_nat (l + 1 - ll)) lt :=
  rec_loop l m x ll pll pmm pmmp1 with Z_le_dec ll l => {
    | left _ =>
        let pll' := ((x * IZR (2 * ll - 1) * pmmp1 - IZR (ll + m - 1) * pmm)
                     / IZR (ll - m))%R in
        rec_loop l m x (ll + 1) pll' pmmp1 pll'
    | right _ => (pll, pmm, pmmp1) }.
Proof. lia. Qed.

(** One pass through the body of the recurrence loop at counter [ll], on
    the state [(pll, pmm, pmmp1)]. *)
Definition rec_body (m : Z) (x : R) (ll : Z) (st : R * R * R) : R * R * R :=
  let '(_, pmm, pmmp1) := st in
  let pll := ((x * IZR (2 * ll - 1) * pmmp1 - IZR (ll + m - 1) * pmm)
              / IZR (ll - m))%R in
  (pll, pmmp1, pll).

(** The values [calculateLegendreP] holds in [pmm] after the first loop and
    in [pmmp1] before the second one, and the state in which it leaves the
    second loop. *)
Definition seed (m : Z) (x : R) : R :=
  fst (seed_loop m (sqrt ((1 - x) * (1 + x))) 1 1%R 1%R).

Definition next (m : Z) (x : R) : R := (x * IZR (2 * m + 1) * seed m x)%R.

Definition run (m : Z) (x : R) (l : Z) : R * R * R :=
  rec_loop l m x (m + 2) 0%R (seed m x) (next m x).

End Legendre.

(** ** The three functions *)

(** [calculateLegendreP(l, m, x)]: associated Legendre polynomial. *)
Definition calculateLegendreP (l m : Z) (x : R) : R :=
  if ((m <? 0) || (m >? l))%bool then 0%R
  else if l =? 0 then 1%R
  else
    let somx2 := sqrt ((1 - x) * (1 + x)) in
    let pmm := fst (Legendre.seed_loop m somx2 1 1%R 1%R) in
    if l =? m then pmm
    else
      let pmmp1 := (x * IZR (2 * m + 1) * pmm)%R in
      if l =? m + 1 then pmmp1
      else
        let '(pll, _, _) := Legendre.rec_loop l m x (m + 2) 0%R pmm pmmp1 in
        pll.

(** [factorial(n)]: [if (n <= 1) return 1; return n * factorial(n - 1)],
    in exact integer arithmetic.  [Binary64.factorial] below is the same
    function on doubles; the two are compared in [Binary64Facts]. *)
Equations? factorial (n : Z) : Z by wf (Z.to_nat n) lt :=
  factorial n with Z_le_dec n 1 => {
    | left _ => 1
    | right _ => n * factorial (n - 1) }.
Proof. lia. Qed.

(** [calculateYlm(l, m, theta, phi)]: real part of the spherical harmonic.
    JavaScript's [%] is the truncated remainder, [Z.rem]. *)
Definition calculateYlm (l m : Z) (theta phi : R) : R :=
  let cosTheta := cos theta in
  let norm :=
    sqrt ((IZR (2 * l + 1) * IZR (factorial (l - Z.abs m)))
          / (4 * PI * IZR (factorial (l + Z.abs m)))) in
  let legendre := calculateLegendreP l (Z.abs m) cosTheta in
  let real := cos (IZR m * phi) in
  let mSign := if m <? 0 then (if Z.rem (Z.abs m) 2 =? 0 then 1 else -1) else 1 in
  (norm * legendre * real * IZR mSign)%R.

(** The argument of [Math.sqrt] in [norm]. *)
Definition norm_radicand (l m : Z) : R :=
  ((IZR (2 * l + 1) * IZR (factorial (l - Z.abs m)))
   / (4 * PI * IZR (factorial (l + Z.abs m))))%R.

(** The colour built by [new THREE.Color().setHSL(h, s, l)], kept as the
    three components handed to [setHSL]. *)
Record Color : Type := setHSL { hue : R; saturation : R; lightness : R }.

(** [valueToColor(value)]. *)
Definition valueToColor (value : R) : Color :=
  let normalized := ((Rmax (-1) (Rmin 1 value) + 1) / 2)%R in
  setHSL (0.8 - normalized * 0.7)%R 0.8%R (0.3 + normalized * 0.4)%R.

(** ** Specification-side definitions *)

(** The coefficient [prod_{i=1}^{m} (-(2i-1))] of the seed value, as the
    specification writes it. *)
Fixpoint seed_coefficient (m : nat) : R :=
  match m with
  | O => 1%R
  | S k => (seed_coefficient k * - (2 * INR (S k) - 1))%R
  end.

(** ** [factorial] on binary64 numbers *)

(** The integers [lo], [lo + 1], ..., [lo + len - 1]. *)
Definition Zrange (lo : Z) (len : nat) : list Z :=
  map (fun k => lo + Z.of_nat k) (seq 0 len).

Module Binary64.

(** The double of an integer below [2^63] in absolute value (exact below
    [2^53]). *)
Definition of_Z (z : Z) : PrimFloat.float :=
  if z <? 0 then PrimFloat.opp (PrimFloat.of_uint63 (Uint63.of_Z (- z)))
  else PrimFloat.of_uint63 (Uint63.of_Z z).

(** [factorial] on integers, under a name that stays visible here. *)
Definition exact_factorial (n : Z) : Z := factorial n.

(** [factorial(n)] on doubles.  [depth] is the number of nested calls the
    call stack still has room for; [None] is the [RangeError] of a call
    for which there is none. *)
Fixpoint factorial (depth : nat) (n : PrimFloat.float) : option PrimFloat.float :=
  if PrimFloat.leb n PrimFloat.one then Some PrimFloat.one
  else match depth with
       | O => None
       | S depth' =>
           match factorial depth' (PrimFloat.sub n PrimFloat.one) with
           | Some r => Some (PrimFloat.mul n r)
           | None => None
           end
       end.

(** The arguments [l - Math.abs(m)] and [l + Math.abs(m)] of the two calls
    in [norm]. *)
Definition arg_minus (l m : Z) : PrimFloat.float :=
  PrimFloat.sub (of_Z l) (PrimFloat.abs (of_Z m)).

Definition arg_plus (l m : Z) : PrimFloat.float :=
  PrimFloat.add (of_Z l) (PrimFloat.abs (of_Z m)).

(** The integer a double stands for, when it is one. *)
Definition to_Z (f : PrimFloat.float) : option Z :=
  match FloatOps.Prim2SF f with
  | SpecFloat.S754_zero _ => Some 0
  | SpecFloat.S754_finite s mant e =>
      let v := if s then Z.neg mant else Z.pos mant in
      if 0 <=? e then Some (v * 2 ^ e)
      else if v mod 2 ^ (- e) =? 0 then Some (v / 2 ^ (- e)) else None
  | _ => None
  end.

(** Decision procedures for the comparison of the two readings of
    [factorial], run on every argument of a finite range.

    [exact_at n]: the double [factorial(n)] is the integer [factorial n]. *)
Definition exact_at (n : Z) : bool :=
  match factorial (Z.to_nat n) (of_Z n) with
  | Some r => match to_Z r with
              | Some z => z =? exact_factorial n
              | None => false
              end
  | None => false
  end.

(** [close_at n]: the double [factorial(n)] is finite and within the
    relative distance [2^-49] of [factorial n]. *)
Definition close_at (n : Z) : bool :=
  match factorial (Z.to_nat n) (of_Z n) with
  | Some r => match to_Z r with
              | Some z => (PrimFloat.is_finite r
                           && (2 ^ 49 * Z.abs (z - exact_factorial n)
                               <=? exact_factorial n))%bool
              | None => false
              end
  | None => false
  end.


(** [slider_at l m], for [|m| <= l]: both calls of [norm] return, within
    [40] nested calls, finite doubles that are at least [1]. *)
Definition slider_at (l m : Z) : bool :=
  if Z.abs m <=? l
  then match factorial 40 (arg_minus l m), factorial 40 (arg_plus l m) with
       | Some a, Some b =>
           (PrimFloat.is_finite a && PrimFloat.is_finite b
            && PrimFloat.leb PrimFloat.one a
            && PrimFloat.leb PrimFloat.one b)%bool
       | _, _ => false
       end
  else true.

Import PrimFloat.


End Binary64.


(** ** The colouring of a vertex in [updateSphere] *)

Module Vertex.

(** [r = Math.sqrt(x * x + y * y + z * z)]. *)
Definition radius (x y z : R) : R := sqrt (x * x + y * y + z * z).

(** [theta = Math.acos(z / r)]. *)
Definition theta (x y z : R) : R := acos (z / radius x y z).

(** The body of the loop over the vertices: the value and the colour of the
    vertex [(x, y, z)].  [Math.atan2] has no counterpart in the Standard
    Library; it is the parameter [atan2]. *)
Definition value (atan2 : R -> R -> R) (l m : Z) (x y z : R) : R :=
  let r := radius x y z in
  let theta := acos (z / r) in
  let phi := atan2 y x in
  calculateYlm l m theta phi.

Definition color (atan2 : R -> R -> R) (l m : Z) (x y z : R) : Color :=
  valueToColor (value atan2 l m x y z).

End Vertex.

(** ** The sliders and the debounced update

    The state of the component that the handlers read and write: the React
    states [l], [m], [draftL], [draftM], the reference [updateTimeoutRef],
    and the browser's table of timeouts that are set and have not run. A
    timeout is its handle and the arguments [(newL, newM)] its callback
    passes to [setL] and [setM]. Handles are positive and never reused. *)

Module UI.

Record state : Type := mkState {
  l : Z;
  m : Z;
  draftL : Z;
  draftM : Z;
  updateTimeoutRef : option positive;
  timers : list (positive * (Z * Z));
  nextTimer : positive
}.

(** [useState(3)], [useState(0)], [useState(3)], [useState(0)],
    [useRef(null)]. *)
Definition init : state := mkState 3 0 3 0 None [] 1%positive.

Definition setDraftL (v : Z) (st : state) : state :=
  mkState (l st) (m st) v (draftM st)
          (updateTimeoutRef st) (timers st) (nextTimer st).

Definition setDraftM (v : Z) (st : state) : state :=
  mkState (l st) (m st) (draftL st) v
          (updateTimeoutRef st) (timers st) (nextTimer st).

(** [clearTimeout(id)]: the timeout [id] is dropped if it is still set. *)
Definition clearTimeout (id : positive) (ts : list (positive * (Z * Z)))
  : list (positive * (Z * Z)) :=
  filter (fun t => negb (Pos.eqb (fst t) id)) ts.

(** [debouncedUpdate(newL, newM)]:
    [if (updateTimeoutRef.current) clearTimeout(updateTimeoutRef.current);
     updateTimeoutRef.current = setTimeout(() => { setL(newL); setM(newM); }, 100)]. *)
Definition debouncedUpdate (newL newM : Z) (st : state) : state :=
  let ts := match updateTimeoutRef st with
            | Some id => clearTimeout id (timers st)
            | None => timers st
            end in
  let id := nextTimer st in
  mkState (l st) (m st) (draftL st) (draftM st)
          (Some id) (ts ++ [(id, (newL, newM))]) (Pos.succ id).

(** [onChange] of the slider of the degree, [newL = parseInt(e.target.value)]. *)
Definition onChangeL (newL : Z) (st : state) : state :=
  let st1 := setDraftL newL st in
  if Z.abs (draftM st) >? newL
  then let newM := 0 in debouncedUpdate newL newM (setDraftM newM st1)
  else debouncedUpdate newL (draftM st) st1.

(** [onChange] of the slider of the order, [newM = parseInt(e.target.value)]. *)
Definition onChangeM (newM : Z) (st : state) : state :=
  debouncedUpdate (draftL st) newM (setDraftM newM st).

(** The timeout [id] runs: its callback calls [setL(newL)] and [setM(newM)],
    and it is no longer set. Nothing happens for a handle that is not set. *)
Definition timeout (id : positive) (st : state) : state :=
  match find (fun t => Pos.eqb (fst t) id) (timers st) with
  | Some (_, (newL, newM)) =>
      mkState newL newM (draftL st) (draftM st)
              (updateTimeoutRef st) (clearTimeout id (timers st)) (nextTimer st)
  | None => st
  end.

(** What can happen to the component. The slider of the degree has
    [min="0"] and [max="20"], the slider of the order has [min={-draftL}] and
    [max={draftL}]: a range input reports a value between its bounds. *)
Inductive step (st : state) : state -> Prop :=
| step_L (v : Z) : 0 <= v <= 20 -> step st (onChangeL v st)
| step_M (v : Z) : - draftL st <= v <= draftL st -> step st (onChangeM v st)
| step_timeout (id : positive) : step st (timeout id st).

Inductive reachable : state -> Prop :=
| reachable_init : reachable init
| reachable_step st st' : reachable st -> step st st' -> reachable st'.

(** What every reachable state satisfies. *)
Definition invariant (st : state) : Prop :=
  0 <= draftL st <= 20 /\ Z.abs (draftM st) <= draftL st /\
  0 <= l st <= 20 /\ Z.abs (m st) <= l st /\
  ((timers st = [] /\ l st = draftL st /\ m st = draftM st) \/
   (exists id, timers st = [(id, (draftL st, draftM st))] /\
               updateTimeoutRef st = Some id)).

(** At most one timeout is set, and it is the one [updateTimeoutRef] holds. *)
Definition one_timer (st : state) : Prop :=
  timers st = [] \/
  exists id args, timers st = [(id, args)] /\ updateTimeoutRef st = Some id.

End UI.

(** ** The loops, one iteration at a time *)

Module LegendreFacts.
Import Legendre.

Lemma seed_loop_eq m somx2 i pmm fact :
  seed_loop m somx2 i pmm fact =
  if i <=? m
  then seed_loop m somx2 (i + 1) (pmm * (- fact * somx2))%R (fact + 2)%R
  else (pmm, fact).
Proof.
  rewrite seed_loop_equation_1.
  destruct (Z_le_dec i m) as [Hle | Hgt]; cbn;
    destruct (Z.leb_spec i m); try lia; reflexivity.
Qed.

Lemma rec_loop_eq l m x ll pll pmm pmmp1 :
  rec_loop l m x ll pll pmm pmmp1 =
  if ll <=? l
  then let '(pll', pmm', pmmp1') := rec_body m x ll (pll, pmm, pmmp1) in
       rec_loop l m x (ll + 1) pll' pmm' pmmp1'
  else (pll, pmm, pmmp1).
Proof.
  rewrite rec_loop_equation_1.
  destruct (Z_le_dec ll l) as [Hle | Hgt]; cbn;
    destruct (Z.leb_spec ll l); try lia; reflexivity.
Qed.

(** Raising the bound by one appends one pass through the body. *)
Lemma rec_loop_snoc m x (n : nat) :
  forall l ll pll pmm pmmp1,
    Z.of_nat n = l + 1 - ll ->
    rec_loop (l + 1) m x ll pll pmm pmmp1 =
    rec_body m x (l + 1) (rec_loop l m x ll pll pmm pmmp1).
Proof.
  induction n as [| n IH]; intros l ll pll pmm pmmp1 Hn.
  - assert (ll = l + 1) by lia. subst ll.
    rewrite (rec_loop_eq (l + 1)), (rec_loop_eq l).
    rewrite Z.leb_refl. cbn.
    rewrite (rec_loop_eq (l + 1)).
    destruct (Z.leb_spec (l + 1 + 1) (l + 1)); try lia.
    destruct (Z.leb_spec (l + 1) l); try lia.
    reflexivity.
  - rewrite (rec_loop_eq (l + 1)), (rec_loop_eq l).
    destruct (Z.leb_spec ll (l + 1)); try lia.
    destruct (Z.leb_spec ll l); try lia.
    cbn. apply IH. lia.
Qed.

(** The state of the recurrence loop of [calculateLegendreP l m x] on exit
    holds the values of the function at [l - 1] and [l]. *)
Section Recurrence.

Variables (m : Z) (x : R).
Hypothesis m_nonneg : 0 <= m.

Lemma legendreP_diag : calculateLegendreP m m x = seed m x.
Proof using m_nonneg.
  unfold calculateLegendreP, seed.
  destruct (Z.ltb_spec m 0); try lia.
  destruct (Z.gtb_spec m m); try lia. cbn.
  destruct (Z.eqb_spec m 0) as [-> | Hm0].
  - rewrite seed_loop_eq. reflexivity.
  - rewrite Z.eqb_refl. reflexivity.
Qed.

Lemma legendreP_succ : calculateLegendreP (m + 1) m x = next m x.
Proof using m_nonneg.
  unfold calculateLegendreP, next, seed.
  destruct (Z.ltb_spec m 0); try lia.
  destruct (Z.gtb_spec m (m + 1)); try lia. cbn.
  destruct (Z.eqb_spec (m + 1) 0); try lia.
  destruct (Z.eqb_spec (m + 1) m); try lia.
  rewrite Z.eqb_refl. reflexivity.
Qed.

Lemma legendreP_loop l :
  m + 2 <= l -> calculateLegendreP l m x = fst (fst (run m x l)).
Proof using m_nonneg.
  intros Hl. unfold calculateLegendreP, run, next, seed.
  destruct (Z.ltb_spec m 0); try lia.
  destruct (Z.gtb_spec m l); try lia. cbn.
  destruct (Z.eqb_spec l 0); try lia.
  destruct (Z.eqb_spec l m); try lia.
  destruct (Z.eqb_spec l (m + 1)); try lia.
  destruct (rec_loop _ _ _ _ _ _ _) as [[pll pmm] pmmp1]. reflexivity.
Qed.

Lemma run_succ l :
  m + 1 <= l -> run m x (l + 1) = rec_body m x (l + 1) (run m x l).
Proof using Type.
  intros Hl. unfold run.
  apply (rec_loop_snoc m x (Z.to_nat (l + 1 - (m + 2)))). lia.
Qed.

Lemma run_state (n : nat) :
  let l := m + 1 + Z.of_nat n in
  snd (fst (run m x l)) = calculateLegendreP (l - 1) m x /\
  snd (run m x l) = calculateLegendreP l m x.
Proof using m_nonneg.
  induction n as [| n [IH1 IH2]]; cbn zeta.
  - replace (m + 1 + Z.of_nat 0) with (m + 1) by lia.
    replace (m + 1 - 1) with m by lia.
    rewrite legendreP_diag, legendreP_succ.
    unfold run. rewrite rec_loop_eq.
    destruct (Z.leb_spec (m + 2) (m + 1)); try lia. split; reflexivity.
  - replace (m + 1 + Z.of_nat (S n)) with (m + 1 + Z.of_nat n + 1) by lia.
    set (l := m + 1 + Z.of_nat n) in *.
    replace (l + 1 - 1) with l by lia.
    rewrite (legendreP_loop (l + 1)) by lia.
    rewrite run_succ by lia.
    destruct (run m x l) as [[pll pmm] pmmp1]. cbn in *.
    split; [exact IH2 | reflexivity].
Qed.

(** The three-term recurrence between consecutive degrees. *)
Lemma legendreP_step l :
  m + 2 <= l ->
  calculateLegendreP l m x =
  ((x * IZR (2 * l - 1) * calculateLegendreP (l - 1) m x
    - IZR (l + m - 1) * calculateLegendreP (l - 2) m x) / IZR (l - m))%R.
Proof using m_nonneg.
  intros Hl.
  rewrite (legendreP_loop l Hl).
  replace l with (l - 1 + 1) at 1 by lia.
  rewrite run_succ by lia.
  destruct (run_state (Z.to_nat (l - 1 - (m + 1)))) as [H1 H2].
  cbn zeta in H1, H2.
  replace (m + 1 + Z.of_nat (Z.to_nat (l - 1 - (m + 1)))) with (l - 1) in H1, H2 by lia.
  replace (l - 1 - 1) with (l - 2) in H1 by lia.
  destruct (run m x (l - 1)) as [[pll pmm] pmmp1]. cbn in *.
  subst pmm pmmp1.
  replace (l - 1 + 1) with l by lia. reflexivity.
Qed.

End Recurrence.

(** The seed loop entered at counter [i] with the product of the first
    [i - 1] factors leaves the product of all [m] factors. *)
Lemma seed_loop_product m somx2 (n : nat) :
  forall i pmm fact,
    1 <= i ->
    Z.of_nat n = m + 1 - i ->
    pmm = (seed_coefficient (Z.to_nat (i - 1)) * somx2 ^ Z.to_nat (i - 1))%R ->
    fact = IZR (2 * i - 1) ->
    fst (seed_loop m somx2 i pmm fact) =
    (seed_coefficient (Z.to_nat m) * somx2 ^ Z.to_nat m)%R.
Proof.
  induction n as [| n IH]; intros i pmm fact Hi Hn Hpmm Hfact.
  - rewrite seed_loop_eq.
    destruct (Z.leb_spec i m); try lia.
    replace m with (i - 1) by lia. exact Hpmm.
  - rewrite seed_loop_eq.
    destruct (Z.leb_spec i m); try lia.
    apply IH; try lia.
    + replace (i + 1 - 1) with i by lia.
      replace (Z.to_nat i) with (S (Z.to_nat (i - 1))) by lia.
      rewrite Hpmm, Hfact. cbn [seed_coefficient pow].
      replace (INR (S (Z.to_nat (i - 1)))) with (IZR i).
      * rewrite minus_IZR, mult_IZR. ring.
      * rewrite INR_IZR_INZ. f_equal. lia.
    + rewrite Hfact, <- plus_IZR. f_equal. lia.
Qed.

Lemma legendreP_seed m x :
  0 <= m ->
  calculateLegendreP m m x =
  (seed_coefficient (Z.to_nat m) * sqrt (1 - x ^ 2) ^ Z.to_nat m)%R.
Proof.
  intros Hm. rewrite legendreP_diag by exact Hm.
  replace (1 - x ^ 2)%R with ((1 - x) * (1 + x))%R by ring.
  apply (seed_loop_product m _ (Z.to_nat m)); try lia; try reflexivity.
  cbn. ring.
Qed.

End LegendreFacts.

(** ** Facts about [factorial] and the sign factor *)

Lemma factorial_eq n :
  factorial n = if n <=? 1 then 1 else n * factorial (n - 1).
Proof.
  rewrite factorial_equation_1.
  destruct (Z_le_dec n 1); cbn; destruct (Z.leb_spec n 1); try lia; reflexivity.
Qed.

Lemma factorial_base n : n <= 1 -> factorial n = 1.
Proof.
  intros Hn. rewrite factorial_eq.
  destruct (Z.leb_spec n 1); [reflexivity | lia].
Qed.

Lemma factorial_pos n : 0 < factorial n.
Proof.
  assert (H : forall k : nat, forall n, n <= Z.of_nat k -> 0 < factorial n).
  { induction k as [| k IH]; intros j Hj.
    - rewrite factorial_base by lia. lia.
    - rewrite factorial_eq. destruct (Z.leb_spec j 1); [lia |].
      apply Z.mul_pos_pos; [lia | apply IH; lia]. }
  apply (H (Z.to_nat n)). lia.
Qed.


Lemma somx2_radicand_nonneg theta :
  (0 <= (1 - cos theta) * (1 + cos theta))%R.
Proof.
  pose proof (COS_bound theta) as [Hlo Hhi]. nra.
Qed.

(** [calculateYlm] is the product of its four factors, with [norm] the
    square root of [norm_radicand]. *)
Lemma calculateYlm_factors l m theta phi :
  calculateYlm l m theta phi =
  (sqrt (norm_radicand l m) * calculateLegendreP l (Z.abs m) (cos theta)
   * cos (IZR m * phi)
   * IZR (if m <? 0 then (if Z.rem (Z.abs m) 2 =? 0 then 1 else -1) else 1))%R.
Proof. reflexivity. Qed.

(** [Math.abs(m) % 2 === 0 ? 1 : -1] is [(-1)^m] for a non-negative [m]. *)
Lemma parity_sign m :
  0 <= m -> IZR (if Z.rem m 2 =? 0 then 1 else -1) = powerRZ (-1) m.
Proof.
  intros Hm.
  rewrite Z.rem_mod_nonneg by lia.
  rewrite <- (Z2Nat.id m) at 2 by lia. rewrite <- pow_powerRZ.
  pose proof (Z.div_mod m 2 ltac:(lia)) as Hdiv.
  pose proof (Z.mod_pos_bound m 2 ltac:(lia)) as Hr.
  destruct (Z.eqb_spec (m mod 2) 0) as [H0 | H1].
  - replace (Z.to_nat m) with (2 * Z.to_nat (m / 2))%nat by lia.
    now rewrite pow_1_even.
  - replace (Z.to_nat m) with (S (2 * Z.to_nat (m / 2))) by lia.
    now rewrite pow_1_odd.
Qed.

(** Negating the order only changes the sign factor of [calculateYlm]. *)
Lemma calculateYlm_neg_order l m theta phi :
  0 < m ->
  calculateYlm l (- m) theta phi =
  (powerRZ (-1) m * calculateYlm l m theta phi)%R.
Proof.
  intros Hm. unfold calculateYlm.
  rewrite Z.abs_opp.
  destruct (Z.ltb_spec (- m) 0); try lia.
  destruct (Z.ltb_spec m 0); try lia.
  rewrite Z.abs_eq by lia.
  rewrite parity_sign by lia.
  rewrite opp_IZR, Ropp_mult_distr_l_reverse, cos_neg. ring.
Qed.

(** ** [factorial] on doubles against [factorial] on integers *)

Module Binary64Facts.

Lemma Zrange_In lo len z :
  lo <= z < lo + Z.of_nat len -> In z (Zrange lo len).
Proof.
  intros Hz. unfold Zrange. apply in_map_iff.
  exists (Z.to_nat (z - lo)). split; [lia | apply in_seq; lia].
Qed.



(** For [n] from [0] to [22], checked one by one. *)
Lemma exact_checked : forallb Binary64.exact_at (Zrange 0 23) = true.
Proof. vm_compute. reflexivity. Qed.

(** For [n] from [0] to [170], checked one by one. *)
Lemma close_checked : forallb Binary64.close_at (Zrange 0 171) = true.
Proof. vm_compute. reflexivity. Qed.



(** For [l] from [0] to [20] and [m] from [-20] to [20], checked one by
    one. *)
Lemma slider_checked :
  forallb (fun l => forallb (Binary64.slider_at l) (Zrange (-20) 41))
          (Zrange 0 21) = true.
Proof. vm_compute. reflexivity. Qed.

Lemma slider_at_true l m :
  0 <= l <= 20 -> Z.abs m <= l -> Binary64.slider_at l m = true.
Proof.
  intros H0 H1.
  pose proof slider_checked as H. rewrite forallb_forall in H.
  specialize (H l (Zrange_In 0 21 l ltac:(lia))).
  rewrite forallb_forall in H.
  exact (H m (Zrange_In (-20) 41 m ltac:(lia))).
Qed.


End Binary64Facts.

(** ** Properties of the evaluator *)

Import LegendreFacts.

(** Closed forms of the first degrees of order [0]. *)
Example legendreP_1_0 (x : R) : calculateLegendreP 1 0 x = x.
Proof.
  change 1 with (0 + 1) at 1. rewrite legendreP_succ by lia.
  unfold Legendre.next, Legendre.seed. rewrite seed_loop_eq. cbn. ring.
Qed.

Example legendreP_2_0 (x : R) :
  calculateLegendreP 2 0 x = ((3 * x ^ 2 - 1) / 2)%R.
Proof.
  rewrite legendreP_step by lia.
  change (2 - 1) with 1. change (2 - 2) with 0.
  rewrite legendreP_1_0.
  change (calculateLegendreP 0 0 x) with 1%R. cbn. field.
Qed.

(** C1. For [m >= 0] and [l >= m + 2], [calculateLegendreP l m x] is obtained
    from its values at [l - 1] and [l - 2] by the three-term recurrence
    [(x (2l-1) P_{l-1} - (l+m-1) P_{l-2}) / (l-m)]; the value at [m + 1],
    where the recurrence starts, is [x (2m+1) P_m]. *)
Theorem legendreP_recurrence (l m : Z) (x : R) :
  0 <= m -> m + 2 <= l ->
  calculateLegendreP l m x =
    ((x * IZR (2 * l - 1) * calculateLegendreP (l - 1) m x
      - IZR (l + m - 1) * calculateLegendreP (l - 2) m x) / IZR (l - m))%R
  /\ calculateLegendreP (m + 1) m x =
       (x * IZR (2 * m + 1) * calculateLegendreP m m x)%R.
Proof.
  intros Hm Hl. split.
  - apply legendreP_step; assumption.
  - rewrite legendreP_succ, legendreP_diag by assumption. reflexivity.
Qed.

Lemma legendreP_recurrence_witness :
  calculateLegendreP 3 1 (1 / 2) =
    ((1 / 2 * IZR (2 * 3 - 1) * calculateLegendreP (3 - 1) 1 (1 / 2)
      - IZR (3 + 1 - 1) * calculateLegendreP (3 - 2) 1 (1 / 2)) / IZR (3 - 1))%R
  /\ calculateLegendreP (1 + 1) 1 (1 / 2) =
       (1 / 2 * IZR (2 * 1 + 1) * calculateLegendreP 1 1 (1 / 2))%R.
Proof.
  apply (legendreP_recurrence 3 1 (1 / 2)); lia.
Defined.



(** C3. For every [l >= 0], [calculateLegendreP l 0 1 = 1]. *)
Theorem legendreP_order0_at_one (l : Z) :
  0 <= l -> calculateLegendreP l 0 1 = 1%R.
Proof.
  intros Hl.
  assert (H : forall n : nat,
             calculateLegendreP (Z.of_nat n) 0 1 = 1%R /\
             calculateLegendreP (Z.of_nat n + 1) 0 1 = 1%R).
  { induction n as [| n [IH1 IH2]].
    - split.
      + reflexivity.
      + change (Z.of_nat 0 + 1) with (0 + 1).
        rewrite legendreP_succ by lia. unfold Legendre.next, Legendre.seed.
        rewrite seed_loop_eq. cbn. lra.
    - replace (Z.of_nat (S n)) with (Z.of_nat n + 1) by lia.
      split; [exact IH2 |].
      rewrite legendreP_step by lia.
      replace (Z.of_nat n + 1 + 1 - 1) with (Z.of_nat n + 1) by lia.
      replace (Z.of_nat n + 1 + 1 - 2) with (Z.of_nat n) by lia.
      rewrite IH1, IH2.
      pose proof (IZR_le 0 (Z.of_nat n) ltac:(lia)) as Hk.
      rewrite !minus_IZR, !mult_IZR, !plus_IZR.
      field. lra. }
  destruct (H (Z.to_nat l)) as [H1 _].
  rewrite Z2Nat.id in H1 by lia. exact H1.
Qed.

Lemma legendreP_order0_at_one_witness : calculateLegendreP 4 0 1 = 1%R.
Proof.
  apply (legendreP_order0_at_one 4); lia.
Defined.

(** C4. [calculateYlm 0 0 theta phi] is the constant [1 / sqrt (4 PI)]. *)
Theorem calculateYlm_00_constant (theta phi : R) :
  calculateYlm 0 0 theta phi = (1 / sqrt (4 * PI))%R.
Proof.
  unfold calculateYlm.
  change (0 - Z.abs 0) with 0. change (0 + Z.abs 0) with 0.
  change (Z.abs 0) with 0. change (2 * 0 + 1) with 1.
  rewrite (factorial_base 0) by lia.
  change (calculateLegendreP 0 0 (cos theta)) with 1%R.
  rewrite Rmult_0_l, cos_0. cbn.
  replace (1 * 1 / (4 * PI * 1))%R with (/ (4 * PI))%R.
  - rewrite sqrt_inv. lra.
  - pose proof PI_RGT_0. field. lra.
Qed.

(** C5, as the code has it. The orders [1] and [-1] of degree [2] give
    opposite values: the sign factor is [-1] for [m = -1] and [1] for
    [m = 1], and nothing else differs. *)
Theorem calculateYlm_2_1_opposite (theta phi : R) :
  calculateYlm 2 (-1) theta phi = (- calculateYlm 2 1 theta phi)%R.
Proof.
  change (-1) with (- (1)).
  rewrite calculateYlm_neg_order by lia.
  unfold powerRZ. rewrite Pos2Nat.inj_1, pow_1. ring.
Qed.

(** [calculateYlm 2 1] is negative at [theta = PI / 3], [phi = 0]. *)
Lemma calculateYlm_2_1_negative : (calculateYlm 2 1 (PI / 3) 0 < 0)%R.
Proof.
  unfold calculateYlm. rewrite cos_PI3.
  change (Z.abs 1) with 1. change (2 - 1) with 1. change (2 + 1) with 3.
  change (2 * 2 + 1) with 5.
  rewrite (factorial_base 1) by lia.
  change (factorial 3) with 6.
  rewrite Rmult_0_r, cos_0. cbn [Z.ltb Z.compare].
  change 2 with (1 + 1) at 1. rewrite legendreP_succ by lia.
  unfold Legendre.next, Legendre.seed. rewrite 2 seed_loop_eq. cbn.
  assert (Hn : (0 < sqrt (5 * 1 / (4 * PI * 6)))%R).
  { apply sqrt_lt_R0. pose proof PI_RGT_0.
    apply Rdiv_lt_0_compat; lra. }
  assert (Hs : (0 < sqrt ((1 - 1 / 2) * (1 + 1 / 2)))%R).
  { apply sqrt_lt_R0. lra. }
  nra.
Qed.

(** C5, as the specification states it, fails: at [theta = PI / 3],
    [phi = 0] the two values are different. *)
Lemma calculateYlm_2_1_not_equal :
  (calculateYlm 2 1 (PI / 3) 0 < calculateYlm 2 (-1) (PI / 3) 0)%R.
Proof.
  change (-1) with (- (1)).
  rewrite calculateYlm_neg_order by lia.
  unfold powerRZ. rewrite Pos2Nat.inj_1, pow_1.
  pose proof calculateYlm_2_1_negative. lra.
Qed.




(** C7. For [l >= 0] and [m < 0] or [m > l], [calculateLegendreP l m x] is
    [0] for every [x]. *)
Theorem legendreP_out_of_range (l m : Z) (x : R) :
  0 <= l -> m < 0 \/ l < m -> calculateLegendreP l m x = 0%R.
Proof.
  intros _ Hm. unfold calculateLegendreP.
  destruct (Z.ltb_spec m 0); [reflexivity |].
  destruct (Z.gtb_spec m l); [reflexivity | lia].
Qed.

Lemma legendreP_out_of_range_witness :
  calculateLegendreP 2 (-1) (1 / 2) = 0%R /\
  calculateLegendreP 2 3 (1 / 2) = 0%R.
Proof.
  split.
  - apply (legendreP_out_of_range 2 (-1) (1 / 2)); lia.
  - apply (legendreP_out_of_range 2 3 (1 / 2)); lia.
Defined.

(** C8. [valueToColor (-1)] is the triple hue [0.8], saturation [0.8],
    lightness [0.3]; [valueToColor 1] is hue [0.1], saturation [0.8],
    lightness [0.7]; the saturation is [0.8] for every input. *)
Theorem valueToColor_extremes :
  valueToColor (-1) = setHSL 0.8 0.8 0.3 /\
  valueToColor 1 = setHSL 0.1 0.8 0.7 /\
  (forall value : R, saturation (valueToColor value) = 0.8%R).
Proof.
  unfold valueToColor. repeat split.
  - rewrite Rmin_right, Rmax_left by lra. f_equal; lra.
  - rewrite Rmin_left, Rmax_right by lra. f_equal; lra.
Qed.

(** C9. [valueToColor] clamps its input to [[-1, 1]]: every [value >= 1]
    gives the colour of [1] and every [value <= -1] the colour of [-1]. *)
Theorem valueToColor_clamps (value : R) :
  ((1 <= value)%R -> valueToColor value = valueToColor 1) /\
  ((value <= -1)%R -> valueToColor value = valueToColor (-1)).
Proof.
  unfold valueToColor. split; intros Hv.
  - rewrite (Rmin_left 1 value) by lra. rewrite (Rmin_left 1 1) by lra.
    reflexivity.
  - rewrite (Rmin_right 1 value) by lra. rewrite (Rmin_right 1 (-1)) by lra.
    rewrite (Rmax_left (-1) value) by lra. rewrite (Rmax_left (-1) (-1)) by lra.
    reflexivity.
Qed.

Lemma valueToColor_clamps_witness :
  valueToColor 5 = valueToColor 1 /\ valueToColor (-5) = valueToColor (-1).
Proof.
  split.
  - apply (proj1 (valueToColor_clamps 5)). lra.
  - apply (proj2 (valueToColor_clamps (-5))). lra.
Defined.

(** C10. For [l >= 0] and [0 <= m <= l], negating the order multiplies the
    value by [(-1)^m]:
    [calculateYlm l (-m) theta phi = (-1)^m * calculateYlm l m theta phi]. *)
Theorem calculateYlm_negation (l m : Z) (theta phi : R) :
  0 <= l -> 0 <= m <= l ->
  calculateYlm l (- m) theta phi =
  (powerRZ (-1) m * calculateYlm l m theta phi)%R.
Proof.
  intros _ [Hm _].
  destruct (Z.eq_dec m 0) as [-> | Hm0].
  - cbn. ring.
  - apply calculateYlm_neg_order. lia.
Qed.

Lemma calculateYlm_negation_witness :
  calculateYlm 3 (- (2)) (PI / 3) 0 =
  (powerRZ (-1) 2 * calculateYlm 3 2 (PI / 3) 0)%R.
Proof.
  apply (calculateYlm_negation 3 2 (PI / 3) 0); lia.
Defined.

(** ** Further properties of [calculateLegendreP] *)

Lemma seed_even m x : Legendre.seed m (- x) = Legendre.seed m x.
Proof.
  unfold Legendre.seed.
  replace ((1 - - x) * (1 + - x))%R with ((1 - x) * (1 + x))%R by ring.
  reflexivity.
Qed.

(** When the seed value vanishes, so does every degree above it. *)
Lemma legendreP_zero_seed m x (n : nat) :
  0 <= m -> Legendre.seed m x = 0%R ->
  calculateLegendreP (m + Z.of_nat n) m x = 0%R /\
  calculateLegendreP (m + Z.of_nat n + 1) m x = 0%R.
Proof.
  intros Hm Hseed. induction n as [| n [IH1 IH2]].
  - replace (m + Z.of_nat 0) with m by lia.
    rewrite legendreP_diag, legendreP_succ by lia.
    unfold Legendre.next. rewrite Hseed. split; [reflexivity | ring].
  - replace (m + Z.of_nat (S n)) with (m + Z.of_nat n + 1) by lia.
    split; [exact IH2 |].
    rewrite legendreP_step by lia.
    replace (m + Z.of_nat n + 1 + 1 - 1) with (m + Z.of_nat n + 1) by lia.
    replace (m + Z.of_nat n + 1 + 1 - 2) with (m + Z.of_nat n) by lia.
    rewrite IH1, IH2. unfold Rdiv. ring.
Qed.

Lemma seed_at_poles m x :
  1 <= m -> (x = 1 \/ x = -1)%R -> Legendre.seed m x = 0%R.
Proof.
  intros Hm Hx.
  rewrite <- legendreP_diag, legendreP_seed by lia.
  replace (1 - x ^ 2)%R with 0%R by (destruct Hx; subst x; ring).
  rewrite sqrt_0, pow_i by lia. ring.
Qed.

Lemma legendreP_at_poles l m x :
  1 <= m -> (x = 1 \/ x = -1)%R -> calculateLegendreP l m x = 0%R.
Proof.
  intros Hm Hx.
  destruct (Z_lt_le_dec l m) as [Hlt | Hle].
  - unfold calculateLegendreP.
    destruct (Z.ltb_spec m 0); [reflexivity |].
    destruct (Z.gtb_spec m l); [reflexivity | lia].
  - destruct (legendreP_zero_seed m x (Z.to_nat (l - m)) ltac:(lia)
                (seed_at_poles m x Hm Hx)) as [H _].
    replace (m + Z.of_nat (Z.to_nat (l - m))) with l in H by lia. exact H.
Qed.

(** Order [0] at [x = 1], by induction along the recurrence. *)
Lemma legendreP_zonal_at_one (n : nat) :
  calculateLegendreP (Z.of_nat n) 0 1 = 1%R /\
  calculateLegendreP (Z.of_nat n + 1) 0 1 = 1%R.
Proof.
  induction n as [| n [IH1 IH2]].
  - split; [reflexivity |]. apply legendreP_1_0.
  - replace (Z.of_nat (S n)) with (Z.of_nat n + 1) by lia.
    split; [exact IH2 |].
    rewrite legendreP_step by lia.
    replace (Z.of_nat n + 1 + 1 - 1) with (Z.of_nat n + 1) by lia.
    replace (Z.of_nat n + 1 + 1 - 2) with (Z.of_nat n) by lia.
    rewrite IH1, IH2.
    pose proof (IZR_le 0 (Z.of_nat n) ltac:(lia)) as Hk.
    rewrite !minus_IZR, !mult_IZR, !plus_IZR. field. lra.
Qed.

(** Reflection [x |-> - x], by induction along the recurrence. *)
Lemma legendreP_reflect m x (n : nat) :
  0 <= m ->
  calculateLegendreP (m + Z.of_nat n) m (- x) =
    ((-1) ^ n * calculateLegendreP (m + Z.of_nat n) m x)%R /\
  calculateLegendreP (m + Z.of_nat n + 1) m (- x) =
    ((-1) ^ S n * calculateLegendreP (m + Z.of_nat n + 1) m x)%R.
Proof.
  intros Hm. induction n as [| n [IH1 IH2]].
  - replace (m + Z.of_nat 0) with m by lia.
    rewrite !legendreP_diag, !legendreP_succ by lia.
    unfold Legendre.next. rewrite seed_even. split; cbn; ring.
  - replace (m + Z.of_nat (S n)) with (m + Z.of_nat n + 1) by lia.
    split; [exact IH2 |].
    rewrite (legendreP_step m (- x)), (legendreP_step m x) by lia.
    replace (m + Z.of_nat n + 1 + 1 - 1) with (m + Z.of_nat n + 1) by lia.
    replace (m + Z.of_nat n + 1 + 1 - 2) with (m + Z.of_nat n) by lia.
    rewrite IH1, IH2. unfold Rdiv. cbn [pow]. ring.
Qed.

(** [factorial] on the natural numbers is their factorial. *)
Lemma factorial_of_nat (n : nat) :
  factorial (Z.of_nat n) = Z.of_nat (fact n).
Proof.
  induction n as [| n IH].
  - reflexivity.
  - rewrite factorial_eq.
    destruct (Z.leb_spec (Z.of_nat (S n)) 1) as [Hle | Hgt].
    + assert (n = 0%nat) by lia. subst n. reflexivity.
    + replace (Z.of_nat (S n) - 1) with (Z.of_nat n) by lia.
      rewrite IH. cbn [fact]. lia.
Qed.

(** X1. For [n] from [0] to [22], [factorial(n)] on doubles returns within
    [n] nested calls, and its value is the integer [n!] exactly. *)
Theorem factorial_exact_upto_22 (n : Z) :
  0 <= n <= 22 ->
  exists r,
    Binary64.factorial (Z.to_nat n) (Binary64.of_Z n) = Some r /\
    Binary64.to_Z r = Some (Z.of_nat (fact (Z.to_nat n))).
Proof.
  intros Hn.
  pose proof Binary64Facts.exact_checked as H. rewrite forallb_forall in H.
  specialize (H n (Binary64Facts.Zrange_In 0 23 n ltac:(lia))).
  unfold Binary64.exact_at, Binary64.exact_factorial in H.
  destruct (Binary64.factorial _ _) as [r |]; [| discriminate].
  exists r. split; [reflexivity |].
  destruct (Binary64.to_Z r) as [z |]; [| discriminate].
  apply Z.eqb_eq in H. rewrite H.
  rewrite <- factorial_of_nat, Z2Nat.id by lia. reflexivity.
Qed.

Lemma factorial_exact_upto_22_witness :
  exists r,
    Binary64.factorial (Z.to_nat 20) (Binary64.of_Z 20) = Some r /\
    Binary64.to_Z r = Some (Z.of_nat (fact (Z.to_nat 20))).
Proof.
  apply (factorial_exact_upto_22 20). lia.
Defined.

(** X23. For [n] from [0] to [170], [factorial(n)] on doubles returns
    within [n] nested calls a finite double, an integer within the relative
    distance [2^-49] of [n!]; at [23] it is no longer [23!], and at [171] it
    is [Infinity]. *)
Theorem factorial_rounded_upto_170 :
  (forall n : Z,
      0 <= n <= 170 ->
      exists r z,
        Binary64.factorial (Z.to_nat n) (Binary64.of_Z n) = Some r /\
        PrimFloat.is_finite r = true /\
        Binary64.to_Z r = Some z /\
        2 ^ 49 * Z.abs (z - factorial n) <= factorial n) /\
  (exists r z,
      Binary64.factorial 23 (Binary64.of_Z 23) = Some r /\
      Binary64.to_Z r = Some z /\ z <> factorial 23) /\
  Binary64.factorial 171 (Binary64.of_Z 171) = Some PrimFloat.infinity.
Proof.
  split; [| split].
  - intros n Hn.
    pose proof Binary64Facts.close_checked as H. rewrite forallb_forall in H.
    specialize (H n (Binary64Facts.Zrange_In 0 171 n ltac:(lia))).
    unfold Binary64.close_at, Binary64.exact_factorial in H.
    destruct (Binary64.factorial _ _) as [r |]; [| discriminate].
    destruct (Binary64.to_Z r) as [z |] eqn:Hz; [| discriminate].
    apply andb_prop in H. destruct H as [Hfin Hclose].
    exists r, z.
    split; [reflexivity | split; [exact Hfin | split; [exact Hz |]]].
    apply Z.leb_le, Hclose.
  - assert (H : Binary64.exact_at 23 = false) by (vm_compute; reflexivity).
    unfold Binary64.exact_at, Binary64.exact_factorial in H.
    destruct (Binary64.factorial _ _) as [r |] eqn:Hr.
    + destruct (Binary64.to_Z r) as [z |] eqn:Hz.
      * exists r, z.
        split; [reflexivity | split; [exact Hz | apply Z.eqb_neq, H]].
      * exfalso. revert Hz. vm_compute in Hr. injection Hr as <-.
        vm_compute. discriminate.
    + exfalso. vm_compute in Hr. discriminate.
  - vm_compute. reflexivity.
Qed.

Lemma factorial_rounded_upto_170_witness :
  exists r z,
    Binary64.factorial (Z.to_nat 170) (Binary64.of_Z 170) = Some r /\
    PrimFloat.is_finite r = true /\
    Binary64.to_Z r = Some z /\
    2 ^ 49 * Z.abs (z - factorial 170) <= factorial 170.
Proof.
  apply (proj1 factorial_rounded_upto_170 170). lia.
Defined.

(** X2. For a degree and an order the sliders allow, [0 <= l <= 20] and
    [|m| <= l], both calls of [factorial] in [norm] return finite doubles
    that are at least [1], within [40] nested calls, and the normalisation
    constant is positive: the value vanishes only where the Legendre factor
    or the cosine does. *)
Theorem norm_positive (l m : Z) :
  0 <= l <= 20 -> Z.abs m <= l ->
  (exists a b,
      Binary64.factorial 40 (Binary64.arg_minus l m) = Some a /\
      Binary64.factorial 40 (Binary64.arg_plus l m) = Some b /\
      PrimFloat.is_finite a = true /\ PrimFloat.is_finite b = true /\
      PrimFloat.leb PrimFloat.one a = true /\
      PrimFloat.leb PrimFloat.one b = true) /\
  (0 < sqrt (norm_radicand l m))%R.
Proof.
  intros Hl Hm. split.
  - pose proof (Binary64Facts.slider_at_true l m Hl Hm) as H.
    unfold Binary64.slider_at in H.
    destruct (Z.leb_spec (Z.abs m) l); try lia.
    destruct (Binary64.factorial 40 (Binary64.arg_minus l m)) as [a |];
      [| discriminate].
    destruct (Binary64.factorial 40 (Binary64.arg_plus l m)) as [b |];
      [| discriminate].
    apply andb_prop in H. destruct H as [H Hb1].
    apply andb_prop in H. destruct H as [H Ha1].
    apply andb_prop in H. destruct H as [Ha Hb].
    exists a, b. repeat split; assumption.
  - apply sqrt_lt_R0. unfold norm_radicand.
    pose proof PI_RGT_0 as Hpi.
    pose proof (IZR_lt _ _ (factorial_pos (l - Z.abs m))) as H1.
    pose proof (IZR_lt _ _ (factorial_pos (l + Z.abs m))) as H2.
    pose proof (IZR_le 0 (2 * l + 1) ltac:(lia)) as H3.
    assert (H4 : (IZR (2 * l + 1) = 2 * IZR l + 1)%R)
      by (rewrite plus_IZR, mult_IZR; reflexivity).
    pose proof (IZR_le 0 l ltac:(lia)) as H5.
    apply Rdiv_lt_0_compat; nra.
Qed.

Lemma norm_positive_witness :
  (exists a b,
      Binary64.factorial 40 (Binary64.arg_minus 20 (-20)) = Some a /\
      Binary64.factorial 40 (Binary64.arg_plus 20 (-20)) = Some b /\
      PrimFloat.is_finite a = true /\ PrimFloat.is_finite b = true /\
      PrimFloat.leb PrimFloat.one a = true /\
      PrimFloat.leb PrimFloat.one b = true) /\
  (0 < sqrt (norm_radicand 20 (-20)))%R.
Proof.
  apply (norm_positive 20 (-20)); simpl; lia.
Defined.

(** X3. Parity: for [0 <= m <= l],
    [calculateLegendreP l m (- x) = (-1)^(l - m) * calculateLegendreP l m x]. *)
Theorem legendreP_parity (l m : Z) (x : R) :
  0 <= m <= l ->
  calculateLegendreP l m (- x) =
  ((-1) ^ Z.to_nat (l - m) * calculateLegendreP l m x)%R.
Proof.
  intros [Hm Hl].
  destruct (legendreP_reflect m x (Z.to_nat (l - m)) Hm) as [H _].
  replace (m + Z.of_nat (Z.to_nat (l - m))) with l in H by lia.
  exact H.
Qed.

Lemma legendreP_parity_witness :
  calculateLegendreP 3 1 (- (1 / 2)) =
  ((-1) ^ Z.to_nat (3 - 1) * calculateLegendreP 3 1 (1 / 2))%R.
Proof.
  apply (legendreP_parity 3 1 (1 / 2)); lia.
Defined.

(** X4. For an order [m >= 1], [calculateLegendreP l m x] is [0] at
    [x = 1] and at [x = -1], for every degree [l]. *)
Theorem legendreP_vanishes_at_poles (l m : Z) :
  1 <= m ->
  calculateLegendreP l m 1 = 0%R /\ calculateLegendreP l m (-1) = 0%R.
Proof.
  intros Hm. split; apply legendreP_at_poles; auto.
Qed.

Lemma legendreP_vanishes_at_poles_witness :
  calculateLegendreP 5 2 1 = 0%R /\ calculateLegendreP 5 2 (-1) = 0%R.
Proof.
  apply (legendreP_vanishes_at_poles 5 2); lia.
Defined.

(** X5. For every degree [l >= 0], [calculateLegendreP l 0 (-1) = (-1)^l]. *)
Theorem legendreP_order0_at_minus_one (l : Z) :
  0 <= l -> calculateLegendreP l 0 (-1) = ((-1) ^ Z.to_nat l)%R.
Proof.
  intros Hl.
  destruct (legendreP_reflect 0 1 (Z.to_nat l) ltac:(lia)) as [H _].
  destruct (legendreP_zonal_at_one (Z.to_nat l)) as [H1 _].
  replace (0 + Z.of_nat (Z.to_nat l)) with l in H by lia.
  rewrite Z2Nat.id in H1 by lia.
  change (-1)%R with (- (1))%R at 1.
  rewrite H, H1. ring.
Qed.

Lemma legendreP_order0_at_minus_one_witness :
  calculateLegendreP 3 0 (-1) = ((-1) ^ Z.to_nat 3)%R.
Proof.
  apply (legendreP_order0_at_minus_one 3); lia.
Defined.



(** ** Further properties of [calculateYlm] *)

Lemma cos_integer_period (m : Z) (t : R) :
  cos (IZR m * (t + 2 * PI)) = cos (IZR m * t).
Proof.
  assert (H : forall k : nat, forall u,
             cos (INR k * (u + 2 * PI)) = cos (INR k * u)).
  { intros k u.
    replace (INR k * (u + 2 * PI))%R with (INR k * u + 2 * INR k * PI)%R by ring.
    apply cos_period. }
  destruct (Z_lt_le_dec m 0) as [Hneg | Hpos].
  - rewrite <- (cos_neg (IZR m * (t + 2 * PI))), <- (cos_neg (IZR m * t)).
    replace (- (IZR m * (t + 2 * PI)))%R
      with (INR (Z.to_nat (- m)) * (t + 2 * PI))%R.
    + replace (- (IZR m * t))%R with (INR (Z.to_nat (- m)) * t)%R; [apply H |].
      rewrite INR_IZR_INZ, Z2Nat.id, opp_IZR by lia. ring.
    + rewrite INR_IZR_INZ, Z2Nat.id, opp_IZR by lia. ring.
  - replace (IZR m) with (INR (Z.to_nat m)); [apply H |].
    rewrite INR_IZR_INZ, Z2Nat.id by lia. reflexivity.
Qed.

(** X6. For the order [0] the value does not depend on the azimuth. *)
Theorem calculateYlm_zonal (l : Z) (theta phi phi' : R) :
  calculateYlm l 0 theta phi = calculateYlm l 0 theta phi'.
Proof.
  rewrite !calculateYlm_factors. rewrite !Rmult_0_l. reflexivity.
Qed.

(** X7. The value has period [2 PI] in the azimuth, for every order. *)
Theorem calculateYlm_periodic (l m : Z) (theta phi : R) :
  calculateYlm l m theta (phi + 2 * PI) = calculateYlm l m theta phi.
Proof.
  rewrite !calculateYlm_factors. rewrite cos_integer_period. reflexivity.
Qed.

(** X8. For a degree and an order the sliders allow, [0 <= l <= 20] and
    [1 <= |m| <= l], and an azimuth in [[-PI, PI]], the value is [0] at both
    poles, [theta = 0] and [theta = PI]. *)
Theorem calculateYlm_poles (l m : Z) (phi : R) :
  0 <= l <= 20 -> m <> 0 -> Z.abs m <= l -> (- PI <= phi <= PI)%R ->
  calculateYlm l m 0 phi = 0%R /\ calculateYlm l m PI phi = 0%R.
Proof.
  intros _ Hm _ _. rewrite !calculateYlm_factors, cos_0, cos_PI.
  rewrite !legendreP_at_poles by (auto; lia).
  split; ring.
Qed.

Lemma calculateYlm_poles_witness :
  calculateYlm 3 (-2) 0 (PI / 3) = 0%R /\ calculateYlm 3 (-2) PI (PI / 3) = 0%R.
Proof.
  pose proof PI_RGT_0.
  apply (calculateYlm_poles 3 (-2) (PI / 3)); try (simpl; lia); lra.
Defined.

(** X9. For the order [0] and a degree the slider allows, [0 <= l <= 20],
    the value at [theta = 0] is [sqrt ((2l + 1) / (4 PI))]. *)
Theorem calculateYlm_zonal_north (l : Z) (phi : R) :
  0 <= l <= 20 ->
  calculateYlm l 0 0 phi = sqrt (IZR (2 * l + 1) / (4 * PI)).
Proof.
  intros [Hl _]. rewrite calculateYlm_factors, cos_0.
  destruct (legendreP_zonal_at_one (Z.to_nat l)) as [H1 _].
  rewrite Z2Nat.id in H1 by lia.
  change (Z.abs 0) with 0. rewrite H1, Rmult_0_l, cos_0.
  change (0 <? 0) with false. cbn iota.
  unfold norm_radicand. change (Z.abs 0) with 0.
  rewrite Z.sub_0_r, Z.add_0_r.
  pose proof (IZR_lt _ _ (factorial_pos l)) as Hf.
  pose proof PI_RGT_0 as Hpi.
  replace (IZR (2 * l + 1) * IZR (factorial l) / (4 * PI * IZR (factorial l)))%R
    with (IZR (2 * l + 1) / (4 * PI))%R by (field; lra).
  ring.
Qed.

Lemma calculateYlm_zonal_north_witness :
  calculateYlm 3 0 0 (PI / 3) = sqrt (IZR (2 * 3 + 1) / (4 * PI)).
Proof.
  apply (calculateYlm_zonal_north 3 (PI / 3)); lia.
Defined.

(** X10. Reflection through the equator: for [|m| <= l],
    [calculateYlm l m (PI - theta) phi
       = (-1)^(l - |m|) * calculateYlm l m theta phi]. *)
Theorem calculateYlm_equator_reflection (l m : Z) (theta phi : R) :
  Z.abs m <= l ->
  calculateYlm l m (PI - theta) phi =
  ((-1) ^ Z.to_nat (l - Z.abs m) * calculateYlm l m theta phi)%R.
Proof.
  intros Hm. rewrite !calculateYlm_factors.
  replace (cos (PI - theta)) with (- cos theta)%R
    by (rewrite cos_minus, cos_PI, sin_PI; ring).
  destruct (legendreP_reflect (Z.abs m) (cos theta) (Z.to_nat (l - Z.abs m))
              ltac:(lia)) as [H _].
  replace (Z.abs m + Z.of_nat (Z.to_nat (l - Z.abs m))) with l in H by lia.
  rewrite H. ring.
Qed.

Lemma calculateYlm_equator_reflection_witness :
  calculateYlm 3 (-2) (PI - PI / 3) 0 =
  ((-1) ^ Z.to_nat (3 - Z.abs (-2)) * calculateYlm 3 (-2) (PI / 3) 0)%R.
Proof.
  apply (calculateYlm_equator_reflection 3 (-2) (PI / 3) 0); simpl; lia.
Defined.

(** ** The colouring of a vertex *)

Lemma radius_bounds x y z :
  (x * x + y * y + z * z <> 0)%R ->
  (0 < Vertex.radius x y z /\
   - Vertex.radius x y z <= z <= Vertex.radius x y z)%R.
Proof.
  intros Hnz. unfold Vertex.radius.
  set (s := (x * x + y * y + z * z)%R) in *.
  assert (Hs : (0 < s)%R) by (unfold s in *; nra).
  pose proof (sqrt_lt_R0 s Hs) as Hr.
  pose proof (sqrt_sqrt s (Rlt_le _ _ Hs)) as Hsq.
  split; [exact Hr |].
  assert (Hdef : s = (x * x + y * y + z * z)%R) by reflexivity. clearbody s.
  pose proof (Rle_0_sqr x) as Hx. pose proof (Rle_0_sqr y) as Hy.
  unfold Rsqr in Hx, Hy.
  split.
  - destruct (Rle_dec (- sqrt s) z) as [H | H]; [exact H |].
    apply Rnot_le_lt in H.
    assert (0 < (- z - sqrt s) * (- z + sqrt s))%R
      by (apply Rmult_lt_0_compat; lra).
    lra.
  - destruct (Rle_dec z (sqrt s)) as [H | H]; [exact H |].
    apply Rnot_le_lt in H.
    assert (0 < (z - sqrt s) * (z + sqrt s))%R
      by (apply Rmult_lt_0_compat; lra).
    lra.
Qed.

Lemma cos_vertex_theta x y z :
  (x * x + y * y + z * z <> 0)%R ->
  cos (Vertex.theta x y z) = (z / Vertex.radius x y z)%R.
Proof.
  intros Hnz. unfold Vertex.theta. apply cos_acos.
  destruct (radius_bounds x y z Hnz) as [Hr [Hlo Hhi]].
  split.
  - apply Rmult_le_reg_r with (Vertex.radius x y z); [exact Hr |].
    unfold Rdiv. rewrite Rmult_assoc, Rinv_l by lra. lra.
  - apply Rmult_le_reg_r with (Vertex.radius x y z); [exact Hr |].
    unfold Rdiv. rewrite Rmult_assoc, Rinv_l by lra. lra.
Qed.

(** X11. For a vertex other than the origin, the polar angle lies in
    [[0, PI]] and its cosine is [z / r]. *)
Theorem vertex_theta (x y z : R) :
  (x * x + y * y + z * z <> 0)%R ->
  (0 <= Vertex.theta x y z <= PI)%R /\
  cos (Vertex.theta x y z) = (z / Vertex.radius x y z)%R.
Proof.
  intros Hnz. split; [apply acos_bound | apply cos_vertex_theta, Hnz].
Qed.

Lemma vertex_theta_witness :
  (0 <= Vertex.theta 0 1 1 <= PI)%R /\
  cos (Vertex.theta 0 1 1) = (1 / Vertex.radius 0 1 1)%R.
Proof.
  apply (vertex_theta 0 1 1). lra.
Defined.

(** X12. At a vertex other than the origin the Legendre factor is taken at
    [z / r]: the value is
    [norm * calculateLegendreP l |m| (z / r) * cos (m * phi) * sign]. *)
Theorem vertex_value (atan2 : R -> R -> R) (l m : Z) (x y z : R) :
  (x * x + y * y + z * z <> 0)%R ->
  Vertex.value atan2 l m x y z =
  (sqrt (norm_radicand l m)
   * calculateLegendreP l (Z.abs m) (z / Vertex.radius x y z)
   * cos (IZR m * atan2 y x)
   * IZR (if m <? 0 then (if Z.rem (Z.abs m) 2 =? 0 then 1 else -1) else 1))%R.
Proof.
  intros Hnz. unfold Vertex.value. cbn zeta.
  rewrite calculateYlm_factors.
  pose proof (cos_vertex_theta x y z Hnz) as Hcos.
  unfold Vertex.theta in Hcos. rewrite Hcos. reflexivity.
Qed.

Lemma vertex_value_witness :
  Vertex.value (fun _ _ => 0%R) 2 1 0 1 1 =
  (sqrt (norm_radicand 2 1)
   * calculateLegendreP 2 (Z.abs 1) (1 / Vertex.radius 0 1 1)
   * cos (IZR 1 * 0)
   * IZR (if 1 <? 0 then (if Z.rem (Z.abs 1) 2 =? 0 then 1 else -1) else 1))%R.
Proof.
  apply (vertex_value (fun _ _ => 0%R) 2 1 0 1 1). lra.
Defined.

Lemma axis_direction z :
  z <> 0%R ->
  (z / Vertex.radius 0 0 z = 1 \/ z / Vertex.radius 0 0 z = -1)%R.
Proof.
  intros Hz. unfold Vertex.radius.
  replace (0 * 0 + 0 * 0 + z * z)%R with (Rsqr z) by (unfold Rsqr; ring).
  rewrite sqrt_Rsqr_abs.
  unfold Rabs. destruct (Rcase_abs z); [right | left]; field; lra.
Qed.

(** X13. For a degree and an order the sliders allow, [0 <= l <= 20] and
    [1 <= |m| <= l], a vertex on the axis of the sphere, [(0, 0, z)] with
    [z <> 0], has the value [0], whatever [Math.atan2] returns there. *)
Theorem vertex_value_on_axis (atan2 : R -> R -> R) (l m : Z) (z : R) :
  z <> 0%R -> 0 <= l <= 20 -> m <> 0 -> Z.abs m <= l ->
  Vertex.value atan2 l m 0 0 z = 0%R.
Proof.
  intros Hz _ Hm _. unfold Vertex.value. cbn zeta.
  rewrite calculateYlm_factors.
  pose proof (cos_vertex_theta 0 0 z) as Hcos.
  unfold Vertex.theta in Hcos. rewrite Hcos by nra.
  rewrite legendreP_at_poles; [ring | lia | apply axis_direction, Hz].
Qed.

Lemma vertex_value_on_axis_witness :
  Vertex.value (fun _ _ => 0%R) 3 (-2) 0 0 (-1) = 0%R.
Proof.
  apply (vertex_value_on_axis (fun _ _ => 0%R) 3 (-2) (-1));
    try (simpl; lia); lra.
Defined.

(** ** Further properties of [valueToColor] *)

Lemma clamp_cases value :
  (value <= -1 /\ Rmax (-1) (Rmin 1 value) = -1)%R \/
  (-1 <= value <= 1 /\ Rmax (-1) (Rmin 1 value) = value)%R \/
  (1 <= value /\ Rmax (-1) (Rmin 1 value) = 1)%R.
Proof.
  destruct (Rle_lt_dec value (-1)) as [H | H].
  - left. split; [exact H |].
    rewrite Rmin_right by lra. apply Rmax_left; exact H.
  - destruct (Rle_lt_dec 1 value) as [H1 | H1].
    + right; right. split; [exact H1 |].
      rewrite Rmin_left by lra. apply Rmax_right; lra.
    + right; left. split; [lra |].
      rewrite Rmin_right by lra. apply Rmax_right; lra.
Qed.

(** X14. Every colour has its hue in [[0.1, 0.8]] and its lightness in
    [[0.3, 0.7]]. *)
Theorem valueToColor_range (value : R) :
  (0.1 <= hue (valueToColor value) <= 0.8)%R /\
  (0.3 <= lightness (valueToColor value) <= 0.7)%R.
Proof.
  unfold valueToColor. cbn [hue lightness].
  destruct (clamp_cases value) as [[_ ->] | [[H ->] | [_ ->]]]; lra.
Qed.

(** X16. The colour map is monotone: a larger value has a hue that is not
    larger and a lightness that is not smaller. *)
Theorem valueToColor_monotone (a b : R) :
  (a <= b)%R ->
  (hue (valueToColor b) <= hue (valueToColor a))%R /\
  (lightness (valueToColor a) <= lightness (valueToColor b))%R.
Proof.
  intros Hab. unfold valueToColor. cbn [hue lightness].
  destruct (clamp_cases a) as [[Ha ->] | [[Ha ->] | [Ha ->]]];
    destruct (clamp_cases b) as [[Hb ->] | [[Hb ->] | [Hb ->]]]; lra.
Qed.

Lemma valueToColor_monotone_witness :
  (hue (valueToColor 2) <= hue (valueToColor (1 / 2)))%R /\
  (lightness (valueToColor (1 / 2)) <= lightness (valueToColor 2))%R.
Proof.
  apply (valueToColor_monotone (1 / 2) 2). lra.
Defined.

(** ** The sliders and the debounced update *)

Module UIFacts.
Import UI.

Lemma invariant_one_timer st : invariant st -> one_timer st.
Proof.
  intros (_ & _ & _ & _ & [[H _] | [id [H Href]]]).
  - left. exact H.
  - right. exists id, (draftL st, draftM st). split; assumption.
Qed.

Lemma debouncedUpdate_timers newL newM st :
  one_timer st ->
  timers (debouncedUpdate newL newM st) = [(nextTimer st, (newL, newM))].
Proof.
  intros [H | (id & args & H & Href)]; unfold debouncedUpdate; cbn.
  - rewrite H. destruct (updateTimeoutRef st); reflexivity.
  - rewrite H, Href. cbn. rewrite Pos.eqb_refl. reflexivity.
Qed.

Lemma invariant_init : invariant init.
Proof.
  unfold invariant, init; cbn. repeat split; try lia. left. auto.
Qed.

Lemma invariant_step st st' : invariant st -> step st st' -> invariant st'.
Proof.
  intros Hinv Hstep.
  pose proof (invariant_one_timer st Hinv) as Hone.
  destruct Hinv as (HdL & HdM & Hl & Hm & Hpend).
  destruct Hstep as [v Hv | v Hv | id].
  - unfold onChangeL.
    destruct (Z.gtb_spec (Z.abs (draftM st)) v) as [Hgt | Hle].
    + assert (Hone' : one_timer (setDraftM 0 (setDraftL v st))) by exact Hone.
      pose proof (debouncedUpdate_timers v 0 _ Hone') as Ht.
      unfold invariant. rewrite Ht. cbn.
      repeat split; try lia.
      right. exists (nextTimer st). split; reflexivity.
    + assert (Hone' : one_timer (setDraftL v st)) by exact Hone.
      pose proof (debouncedUpdate_timers v (draftM st) _ Hone') as Ht.
      unfold invariant. rewrite Ht. cbn.
      repeat split; try lia.
      right. exists (nextTimer st). split; reflexivity.
  - unfold onChangeM.
    assert (Hone' : one_timer (setDraftM v st)) by exact Hone.
    pose proof (debouncedUpdate_timers (draftL st) v _ Hone') as Ht.
    unfold invariant. rewrite Ht. cbn.
    repeat split; try lia.
    right. exists (nextTimer st). split; reflexivity.
  - unfold timeout.
    destruct Hpend as [[Ht [Hl' Hm']] | [id0 [Ht Href]]].
    + rewrite Ht. cbn. unfold invariant. repeat split; try lia. left. auto.
    + rewrite Ht. cbn.
      destruct (Pos.eqb_spec id0 id) as [-> | Hne].
      * unfold invariant. cbn.
        repeat split; try lia. left. auto.
      * unfold invariant. repeat split; try lia.
        right. exists id0. split; assumption.
Qed.

Lemma reachable_invariant st : reachable st -> invariant st.
Proof.
  induction 1 as [| st st' _ IH Hstep].
  - exact invariant_init.
  - exact (invariant_step st st' IH Hstep).
Qed.

(** A state reached by moving the slider of the degree to [1] and then the
    slider of the order to [-1]. *)
Lemma reachable_example : reachable (onChangeM (-1) (onChangeL 1 init)).
Proof.
  apply reachable_step with (onChangeL 1 init).
  - apply reachable_step with init; [exact reachable_init |].
    apply step_L. lia.
  - apply step_M. cbn. lia.
Defined.

(** X17. Whatever the user does with the sliders and whenever the timeouts
    run, the degree and order in use satisfy [0 <= l <= 20] and [|m| <= l],
    and so do the drafts the sliders show. *)
Theorem ui_order_within_degree (st : state) :
  reachable st ->
  0 <= l st <= 20 /\ Z.abs (m st) <= l st /\
  0 <= draftL st <= 20 /\ Z.abs (draftM st) <= draftL st.
Proof.
  intros Hr. destruct (reachable_invariant st Hr) as (H1 & H2 & H3 & H4 & _).
  repeat split; lia.
Qed.

Lemma ui_order_within_degree_witness :
  let st := onChangeM (-1) (onChangeL 1 init) in
  0 <= l st <= 20 /\ Z.abs (m st) <= l st /\
  0 <= draftL st <= 20 /\ Z.abs (draftM st) <= draftL st.
Proof.
  exact (ui_order_within_degree _ reachable_example).
Defined.

(** X18. At most one timeout is set at any time. *)
Theorem ui_at_most_one_timer (st : state) :
  reachable st -> (length (timers st) <= 1)%nat.
Proof.
  intros Hr.
  destruct (invariant_one_timer st (reachable_invariant st Hr))
    as [H | (id & args & H & _)]; rewrite H; cbn; lia.
Qed.

Lemma ui_at_most_one_timer_witness :
  (length (timers (onChangeM (-1) (onChangeL 1 init))) <= 1)%nat.
Proof.
  exact (ui_at_most_one_timer _ reachable_example).
Defined.

(** X19. When no timeout is set, the degree and order in use are the ones
    the sliders show. *)
Theorem ui_quiescent (st : state) :
  reachable st -> timers st = [] ->
  l st = draftL st /\ m st = draftM st.
Proof.
  intros Hr Ht.
  destruct (reachable_invariant st Hr) as (_ & _ & _ & _ & [[_ H] | [id [H _]]]).
  - exact H.
  - rewrite Ht in H. discriminate.
Qed.

Lemma ui_quiescent_witness :
  let st := timeout 2 (onChangeM (-1) (onChangeL 1 init)) in
  l st = draftL st /\ m st = draftM st.
Proof.
  apply ui_quiescent; [| reflexivity].
  apply reachable_step with (onChangeM (-1) (onChangeL 1 init));
    [exact reachable_example | apply step_timeout].
Defined.

(** X20. A timeout that is set carries the values the sliders show: when it
    runs, the degree and order in use become the drafts, and no timeout is
    left. *)
Theorem ui_timeout_commits_drafts (st : state) (id : positive) (args : Z * Z) :
  reachable st -> In (id, args) (timers st) ->
  l (timeout id st) = draftL st /\ m (timeout id st) = draftM st /\
  timers (timeout id st) = [].
Proof.
  intros Hr Hin.
  destruct (reachable_invariant st Hr)
    as (_ & _ & _ & _ & [[H _] | [id0 [H _]]]).
  - rewrite H in Hin. destruct Hin.
  - rewrite H in Hin. destruct Hin as [Heq | []].
    injection Heq as <- _.
    unfold timeout. rewrite H. cbn. rewrite Pos.eqb_refl. cbn.
    repeat split.
Qed.

Lemma ui_timeout_commits_drafts_witness :
  let st := onChangeM (-1) (onChangeL 1 init) in
  l (timeout 2 st) = draftL st /\ m (timeout 2 st) = draftM st /\
  timers (timeout 2 st) = [].
Proof.
  apply (ui_timeout_commits_drafts _ 2%positive (1, -1) reachable_example).
  left. reflexivity.
Defined.

(** X21. Debouncing: a call of [debouncedUpdate] cancels the timeout set
    before it, so that only its own timeout is set; when that one runs, the
    degree and order in use are the arguments of this last call. *)
Theorem ui_debounce_last_call (st : state) (newL newM : Z) :
  reachable st ->
  let st' := debouncedUpdate newL newM st in
  timers st' = [(nextTimer st, (newL, newM))] /\
  l (timeout (nextTimer st) st') = newL /\
  m (timeout (nextTimer st) st') = newM.
Proof.
  intros Hr st'.
  pose proof (debouncedUpdate_timers newL newM st
                (invariant_one_timer st (reachable_invariant st Hr))) as Ht.
  fold st' in Ht. split; [exact Ht |].
  unfold timeout. rewrite Ht. cbn. rewrite Pos.eqb_refl. cbn. split; reflexivity.
Qed.

Lemma ui_debounce_last_call_witness :
  let st := onChangeM (-1) (onChangeL 1 init) in
  let st' := debouncedUpdate 7 4 st in
  timers st' = [(nextTimer st, (7, 4))] /\
  l (timeout (nextTimer st) st') = 7 /\
  m (timeout (nextTimer st) st') = 4.
Proof.
  exact (ui_debounce_last_call _ 7 4 reachable_example).
Defined.

End UIFacts.
